(** * The finite-element base class of deal.II ([fe/fe.h])

    A shallow embedding of [FiniteElement<dim>]: its data members, the
    index queries defined inline at the end of [fe.h], and the laws that
    relate them.

    Conventions.
    - [unsigned int] is a 32-bit integer, embedded in [Z]; every
      arithmetic operation of the source is followed by its wrap-around.
    - [std::vector<T>] is a [list T]; [v.size()] is its length and [v[i]]
      is [vec_at v i], which is undefined behaviour out of range.
    - a member function is [const]: it is a function of the element and
      of its arguments and returns an [outcome]; the element itself is
      never returned because it cannot change.
    - [Assert (cond, exc)] is the checking macro: when [cond] is false the
      call ends by signalling [exc]. *)

From Stdlib Require Import ZArith Lia Bool Floats.
From stdpp Require Import base list.

Local Open Scope Z_scope.

(** ** Unsigned 32-bit arithmetic *)

Definition wrap (x : Z) : Z := x mod 2 ^ 32.
Definition uadd (a b : Z) : Z := wrap (a + b).
Definition usub (a b : Z) : Z := wrap (a - b).
Definition umul (a b : Z) : Z := wrap (a * b).
Definition is_unsigned (x : Z) : Prop := 0 <= x < 2 ^ 32.

(** The conversion of an [unsigned int] to [int], as it happens when an
    exception that [fe.h] declares with [int] arguments is built from
    unsigned values: the value modulo 2^32 in [-2^31, 2^31). *)
Definition to_int (x : Z) : Z := (x + 2 ^ 31) mod 2 ^ 32 - 2 ^ 31.

(** ** Exceptions and outcomes of a call *)

Inductive exception : Type :=
| ExcIndexRange (index lower upper : Z)
| ExcShapeFunctionNotPrimitive (index : Z)
| ExcComponentIndexInvalid (component index : Z)
| ExcEmbeddingVoid
| ExcProjectionVoid
| ExcConstraintsVoid.

Inductive outcome (A : Type) : Type :=
| Returns (a : A)
| Throws (e : exception)
| Undefined.
Arguments Returns {A} a.
Arguments Throws {A} e.
Arguments Undefined {A}.

#[global] Instance outcome_ret : MRet outcome := fun _ a => Returns a.
#[global] Instance outcome_bind : MBind outcome := fun _ _ f c =>
  match c with
  | Returns a => f a
  | Throws e => Throws e
  | Undefined => Undefined
  end.

Definition Assert (cond : bool) (e : exception) : outcome unit :=
  if cond then Returns tt else Throws e.

(** [a && b] and [a || b] where the right operand is a call: it is
    evaluated only when the left operand does not decide the result. *)
Definition and_then (a : bool) (b : outcome bool) : outcome bool :=
  if a then b else Returns false.
Definition or_else (a b : outcome bool) : outcome bool :=
  x ← a; if (x : bool) then Returns true else b.

(** ** [std::vector] *)

Definition size {A} (v : list A) : Z := Z.of_nat (length v).

Definition vec_at {A} (v : list A) (i : Z) : outcome A :=
  match v !! Z.to_nat i with
  | Some a => Returns a
  | None => Undefined
  end.

(** [std::find (v.begin(), v.end(), x)] as a distance from [v.begin()]:
    the position of the first element equal to [x], or the length of [v]
    for [v.end()]. *)
Definition std_find `{EqDecision A} (v : list A) (x : A) : nat :=
  match list_find (λ y, y = x) v with
  | Some (pos, _) => pos
  | None => length v
  end.

(** ** Collaborators declared outside [fe.h] *)

(** Modelled from the spec: [GeometryInfo<dim>] (base/geometry_info.h is
    not among the sources).  The per-dimension combinatorial constants
    consumed from the geometry collaborator; their values are parameters
    of the development. *)
Record Geometry : Type := {
  vertices_per_cell : Z;
  lines_per_cell : Z;
  vertices_per_face : Z;
  lines_per_face : Z;
  children_per_cell : Z
}.

(** The space dimensions the class template is instantiated for. *)
Inductive dimension : Type := dim1 | dim2 | dim3.

Definition dim_int (dim : dimension) : Z :=
  match dim with dim1 => 1 | dim2 => 2 | dim3 => 3 end.

(** Modelled from the spec: [FiniteElementData<dim>] (fe/fe_base.h is not
    among the sources), the Element Descriptor: degrees of freedom per
    vertex, line, quad and hex, the totals per face and per cell, and the
    number of vector components. *)
Record FiniteElementData : Type := {
  dofs_per_vertex : Z;
  dofs_per_line : Z;
  dofs_per_quad : Z;
  dofs_per_hex : Z;
  dofs_per_face : Z;
  dofs_per_cell : Z;
  components : Z
}.

(** Modelled from the spec: [FullMatrix<double>] (lac/full_matrix.h is not
    among the sources): a dense matrix with [m] rows and [n] columns whose
    entries are stored row by row. *)
Module FullMatrix.
Record t : Type := { m : Z; n : Z; val : list float }.

(** A matrix without entries: the "explicitly empty (zero-sized)"
    matrix of an element that does not supply it. *)
Definition zero_sized (M : t) : bool := (m M =? 0) || (n M =? 0).

(** A matrix of the given size with all entries zero. *)
Definition zero (rows cols : Z) : t :=
  {| m := rows; n := cols;
     val := replicate (Z.to_nat (rows * cols)) 0%float |}.

Fixpoint val_eqb (a b : list float) : bool :=
  match a, b with
  | [], [] => true
  | x :: a', y :: b' => PrimFloat.eqb x y && val_eqb a' b'
  | _, _ => false
  end.

Definition eqb (A B : t) : bool :=
  (m A =? m B) && (n A =? n B) && val_eqb (val A) (val B).
End FullMatrix.

(** ** The data members of [FiniteElement<dim>] *)

Record FiniteElement : Type := {
  fe_data : FiniteElementData;
  restriction : list FullMatrix.t;
  prolongation : list FullMatrix.t;
  interface_constraints : FullMatrix.t;
  system_to_component_table : list (Z * Z);
  face_system_to_component_table : list (Z * Z);
  system_to_base_table : list ((Z * Z) * Z);
  face_system_to_base_table : list ((Z * Z) * Z);
  component_to_base_table : list (Z * Z);
  restriction_is_additive_flags : list bool;
  nonzero_components : list (list bool);
  n_nonzero_components_table : list Z;
  cached_primitivity : bool
}.

(** ** The inline member functions of [fe.h] *)

Section Queries.
Variable dim : dimension.
Variable GeometryInfo : Z -> Geometry.
Variable fe : FiniteElement.

Let this := fe_data fe.

Definition is_primitive (i : Z) : outcome bool :=
  Assert (i <? dofs_per_cell this)
         (ExcIndexRange i 0 (dofs_per_cell this));;
  k ← vec_at (n_nonzero_components_table fe) i;
  Returns (k =? 1).

Definition is_primitive_fe : bool := cached_primitivity fe.

Definition n_nonzero_components (i : Z) : outcome Z :=
  Assert (i <? dofs_per_cell this)
         (ExcIndexRange i 0 (dofs_per_cell this));;
  vec_at (n_nonzero_components_table fe) i.

Definition get_nonzero_components (i : Z) : outcome (list bool) :=
  Assert (i <? dofs_per_cell this)
         (ExcIndexRange i 0 (dofs_per_cell this));;
  vec_at (nonzero_components fe) i.

Definition restriction_is_additive (index : Z) : outcome bool :=
  Assert (index <? dofs_per_cell this)
         (ExcIndexRange index 0 (dofs_per_cell this));;
  vec_at (restriction_is_additive_flags fe) index.

Definition system_to_component_index (index : Z) : outcome (Z * Z) :=
  Assert (index <? size (system_to_component_table fe))
         (ExcIndexRange index 0 (size (system_to_component_table fe)));;
  p ← is_primitive index;
  Assert p (ExcShapeFunctionNotPrimitive index);;
  vec_at (system_to_component_table fe) index.

Definition component_to_system_index (component index : Z) : outcome Z :=
  let it := std_find (system_to_component_table fe) (component, index) in
  Assert (bool_decide (it ≠ length (system_to_component_table fe)))
         (ExcComponentIndexInvalid (to_int component) (to_int index));;
  Returns (wrap (Z.of_nat it)).

(** The argument of [is_primitive] in the 2-d and in the 3-d disjunct of
    the assertion of [face_system_to_component_index]: the cell index of
    the shape function with the given face index. *)
Definition face_to_cell_index_2d (index : Z) : Z :=
  if index <? umul (vertices_per_face (GeometryInfo 2))
                   (dofs_per_vertex this)
  then index
  else uadd (umul (vertices_per_cell (GeometryInfo 2))
                  (dofs_per_vertex this))
            (usub index
                  (umul (vertices_per_face (GeometryInfo 2))
                        (dofs_per_vertex this))).

Definition face_to_cell_index_3d (index : Z) : Z :=
  if index <? umul (vertices_per_face (GeometryInfo 3))
                   (dofs_per_vertex this)
  then index
  else if index <? uadd (umul (vertices_per_face (GeometryInfo 3))
                              (dofs_per_vertex this))
                        (umul (lines_per_face (GeometryInfo 3))
                              (dofs_per_line this))
  then uadd (umul (vertices_per_cell (GeometryInfo 3))
                  (dofs_per_vertex this))
            (usub index
                  (umul (vertices_per_face (GeometryInfo 3))
                        (dofs_per_vertex this)))
  else uadd (uadd (umul (vertices_per_cell (GeometryInfo 3))
                        (dofs_per_vertex this))
                  (umul (lines_per_cell (GeometryInfo 3))
                        (dofs_per_line this)))
            (usub (usub index
                        (umul (vertices_per_face (GeometryInfo 3))
                              (dofs_per_vertex this)))
                  (umul (lines_per_face (GeometryInfo 3))
                        (dofs_per_line this))).

Definition face_system_to_component_index (index : Z) : outcome (Z * Z) :=
  Assert (index <? size (face_system_to_component_table fe))
         (ExcIndexRange index 0 (size (face_system_to_component_table fe)));;
  p ← or_else (and_then (dim_int dim =? 1) (is_primitive index))
      (or_else (and_then (dim_int dim =? 2)
                         (is_primitive (face_to_cell_index_2d index)))
               (and_then (dim_int dim =? 3)
                         (is_primitive (face_to_cell_index_3d index))));
  Assert p (ExcShapeFunctionNotPrimitive index);;
  vec_at (face_system_to_component_table fe) index.

Definition system_to_base_index (index : Z) : outcome ((Z * Z) * Z) :=
  Assert (index <? size (system_to_base_table fe))
         (ExcIndexRange index 0 (size (system_to_base_table fe)));;
  vec_at (system_to_base_table fe) index.

Definition face_system_to_base_index (index : Z) : outcome ((Z * Z) * Z) :=
  Assert (index <? size (face_system_to_base_table fe))
         (ExcIndexRange index 0 (size (face_system_to_base_table fe)));;
  vec_at (face_system_to_base_table fe) index.

Definition component_to_base (index : Z) : outcome (Z * Z) :=
  Assert (index <? size (component_to_base_table fe))
         (ExcIndexRange index 0 (size (component_to_base_table fe)));;
  vec_at (component_to_base_table fe) index.

End Queries.

(** ** The member functions defined in [fe.cc] *)

(** [std::count (v.begin(), v.end(), x)]. *)
Definition std_count `{EqDecision A} (v : list A) (x : A) : Z :=
  size (filter (λ y, y = x) v).

(** Modelled from the spec: [compute_n_nonzero_components] (fe.cc is not
    among the sources): for each shape function, in how many components
    it is non-zero, i.e. the number of [true] entries of its row of
    [nonzero_components]. *)
Definition compute_n_nonzero_components
    (nonzero_components : list (list bool)) : list Z :=
  (λ row, std_count row true) <$> nonzero_components.

(** Modelled from the spec: [interface_constraints_size] (fe.cc is not
    among the sources).  In 1-d the matrix is 0 x 0.  In 2-d the rows are
    the dofs on the middle vertex and on the two child lines, the columns
    those on the two end vertices and on the parent line.  In 3-d the rows
    cover the centre vertex, the 4 mid-edge vertices, the 4 lines from the
    centre to the boundary, the 8 boundary half-lines and the 4 child
    faces; the columns the 4 corner vertices, the 4 boundary lines and
    the parent face. *)
Definition interface_constraints_size
    (dim : dimension) (this : FiniteElementData) : Z * Z :=
  match dim with
  | dim1 => (0, 0)
  | dim2 => (dofs_per_vertex this + 2 * dofs_per_line this,
             2 * dofs_per_vertex this + dofs_per_line this)
  | dim3 => (dofs_per_vertex this + 4 * dofs_per_vertex this
             + 4 * dofs_per_line this + 8 * dofs_per_line this
             + 4 * dofs_per_quad this,
             4 * dofs_per_vertex this + 4 * dofs_per_line this
             + dofs_per_quad this)
  end.

Section Construction.
Variable dim : dimension.
Variable GeometryInfo : Z -> Geometry.

(** Modelled from the spec: the constructor of [FiniteElement<dim>]
    (fe.cc is not among the sources).  It stores the descriptor, the
    additivity flags and the non-zero component sets, derives the
    cardinality table and the cached primitivity from them, gives every
    child a transfer matrix of [dofs_per_cell] x [dofs_per_cell] and the
    interface constraints their size, and fills the index tables for an
    element that is not composed of others: component, base and instance
    are zero and the index within is the index of the shape function. *)
Definition make_FiniteElement
    (fe_data : FiniteElementData)
    (restriction_is_additive_flags : list bool)
    (nonzero_components : list (list bool)) : FiniteElement :=
  let n_children := Z.to_nat (children_per_cell (GeometryInfo (dim_int dim))) in
  let n := dofs_per_cell fe_data in
  let table := compute_n_nonzero_components nonzero_components in
  {| fe_data := fe_data;
     restriction := replicate n_children (FullMatrix.zero n n);
     prolongation := replicate n_children (FullMatrix.zero n n);
     interface_constraints :=
       FullMatrix.zero (interface_constraints_size dim fe_data).1
                       (interface_constraints_size dim fe_data).2;
     system_to_component_table := (λ j, (0, j)) <$> seqZ 0 n;
     face_system_to_component_table :=
       (λ j, (0, j)) <$> seqZ 0 (dofs_per_face fe_data);
     system_to_base_table := (λ j, ((0, 0), j)) <$> seqZ 0 n;
     face_system_to_base_table :=
       (λ j, ((0, 0), j)) <$> seqZ 0 (dofs_per_face fe_data);
     component_to_base_table :=
       replicate (Z.to_nat (components fe_data)) (0, 0);
     restriction_is_additive_flags := restriction_is_additive_flags;
     nonzero_components := nonzero_components;
     n_nonzero_components_table := table;
     cached_primitivity := forallb (λ k, k =? 1) table |}.

Variable fe : FiniteElement.

(** Modelled from the spec: [get_restriction_matrix] (fe.cc is not among
    the sources): the matrix of the given child, which must be below
    [children_per_cell]; it fails when the element left that matrix
    zero-sized. *)
Definition get_restriction_matrix (child : Z) : outcome FullMatrix.t :=
  Assert (child <? children_per_cell (GeometryInfo (dim_int dim)))
         (ExcIndexRange child 0
            (children_per_cell (GeometryInfo (dim_int dim))));;
  M ← vec_at (restriction fe) child;
  Assert (negb (FullMatrix.zero_sized M)) ExcProjectionVoid;;
  Returns M.

(** Modelled from the spec: [get_prolongation_matrix] (fe.cc is not among
    the sources), as [get_restriction_matrix]. *)
Definition get_prolongation_matrix (child : Z) : outcome FullMatrix.t :=
  Assert (child <? children_per_cell (GeometryInfo (dim_int dim)))
         (ExcIndexRange child 0
            (children_per_cell (GeometryInfo (dim_int dim))));;
  M ← vec_at (prolongation fe) child;
  Assert (negb (FullMatrix.zero_sized M)) ExcEmbeddingVoid;;
  Returns M.

(** Modelled from the spec: [restriction_is_implemented] and
    [prolongation_is_implemented] (fe.cc is not among the sources): the
    probes that tell beforehand whether the element populated its
    matrices, i.e. whether no child's matrix is zero-sized. *)
Definition restriction_is_implemented : bool :=
  forallb (λ M, negb (FullMatrix.zero_sized M)) (restriction fe).

Definition prolongation_is_implemented : bool :=
  forallb (λ M, negb (FullMatrix.zero_sized M)) (prolongation fe).

(** Modelled from the spec: [constraints_are_implemented] and
    [constraints] (fe.cc is not among the sources): the matrix is returned
    unless the element left it empty. *)
Definition constraints_are_implemented : bool :=
  negb (FullMatrix.zero_sized (interface_constraints fe)).

Definition constraints : outcome FullMatrix.t :=
  Assert (negb (FullMatrix.zero_sized (interface_constraints fe)))
         ExcConstraintsVoid;;
  Returns (interface_constraints fe).

End Construction.

(** Equality of two descriptors, field by field. *)
Definition FiniteElementData_eqb (a b : FiniteElementData) : bool :=
  (dofs_per_vertex a =? dofs_per_vertex b)
  && (dofs_per_line a =? dofs_per_line b)
  && (dofs_per_quad a =? dofs_per_quad b)
  && (dofs_per_hex a =? dofs_per_hex b)
  && (dofs_per_face a =? dofs_per_face b)
  && (dofs_per_cell a =? dofs_per_cell b)
  && (components a =? components b).

(** Modelled from the spec: [operator ==] (fe.cc is not among the
    sources), after the documentation of its declaration in [fe.h]: the
    element data are compared and also the constraint matrix; the matrix
    arrays [restriction] and [prolongation] are not compared. *)
Definition operator_eq (this f : FiniteElement) : bool :=
  FiniteElementData_eqb (fe_data this) (fe_data f)
  && FullMatrix.eqb (interface_constraints this) (interface_constraints f).

(** ** What a derived class writes

    The matrices and the index tables are protected members which the
    constructor of a concrete element fills in after the constructor of
    the base class has run.  The members [restriction_is_additive_flags],
    [nonzero_components], [n_nonzero_components_table] and
    [cached_primitivity] are [const]: no write reaches them. *)

Inductive member_write : Type :=
| write_restriction (child : nat) (M : FullMatrix.t)
| write_prolongation (child : nat) (M : FullMatrix.t)
| write_interface_constraints (M : FullMatrix.t)
| write_system_to_component_table (t : list (Z * Z))
| write_face_system_to_component_table (t : list (Z * Z))
| write_system_to_base_table (t : list ((Z * Z) * Z))
| write_face_system_to_base_table (t : list ((Z * Z) * Z))
| write_component_to_base_table (t : list (Z * Z)).

Definition with_matrices (fe : FiniteElement)
    (r p : list FullMatrix.t) (c : FullMatrix.t) : FiniteElement :=
  {| fe_data := fe_data fe;
     restriction := r;
     prolongation := p;
     interface_constraints := c;
     system_to_component_table := system_to_component_table fe;
     face_system_to_component_table := face_system_to_component_table fe;
     system_to_base_table := system_to_base_table fe;
     face_system_to_base_table := face_system_to_base_table fe;
     component_to_base_table := component_to_base_table fe;
     restriction_is_additive_flags := restriction_is_additive_flags fe;
     nonzero_components := nonzero_components fe;
     n_nonzero_components_table := n_nonzero_components_table fe;
     cached_primitivity := cached_primitivity fe |}.

Definition with_tables (fe : FiniteElement)
    (s2c fs2c : list (Z * Z)) (s2b fs2b : list ((Z * Z) * Z))
    (c2b : list (Z * Z)) : FiniteElement :=
  {| fe_data := fe_data fe;
     restriction := restriction fe;
     prolongation := prolongation fe;
     interface_constraints := interface_constraints fe;
     system_to_component_table := s2c;
     face_system_to_component_table := fs2c;
     system_to_base_table := s2b;
     face_system_to_base_table := fs2b;
     component_to_base_table := c2b;
     restriction_is_additive_flags := restriction_is_additive_flags fe;
     nonzero_components := nonzero_components fe;
     n_nonzero_components_table := n_nonzero_components_table fe;
     cached_primitivity := cached_primitivity fe |}.

(** One write.  A write to an array element keeps the array's extent
    (writing past the end of [restriction] or [prolongation] is not a
    write a program can make). *)
Definition write (fe : FiniteElement) (w : member_write) : FiniteElement :=
  match w with
  | write_restriction child M =>
      with_matrices fe (<[child := M]> (restriction fe)) (prolongation fe)
                    (interface_constraints fe)
  | write_prolongation child M =>
      with_matrices fe (restriction fe) (<[child := M]> (prolongation fe))
                    (interface_constraints fe)
  | write_interface_constraints M =>
      with_matrices fe (restriction fe) (prolongation fe) M
  | write_system_to_component_table t =>
      with_tables fe t (face_system_to_component_table fe)
                  (system_to_base_table fe) (face_system_to_base_table fe)
                  (component_to_base_table fe)
  | write_face_system_to_component_table t =>
      with_tables fe (system_to_component_table fe) t
                  (system_to_base_table fe) (face_system_to_base_table fe)
                  (component_to_base_table fe)
  | write_system_to_base_table t =>
      with_tables fe (system_to_component_table fe)
                  (face_system_to_component_table fe)
                  t (face_system_to_base_table fe)
                  (component_to_base_table fe)
  | write_face_system_to_base_table t =>
      with_tables fe (system_to_component_table fe)
                  (face_system_to_component_table fe)
                  (system_to_base_table fe) t
                  (component_to_base_table fe)
  | write_component_to_base_table t =>
      with_tables fe (system_to_component_table fe)
                  (face_system_to_component_table fe)
                  (system_to_base_table fe) (face_system_to_base_table fe) t
  end.

(** The element after the writes of a derived class's constructor. *)
Definition derived (fe : FiniteElement) (ws : list member_write)
    : FiniteElement :=
  foldl write fe ws.

(** The writes of a concrete element that is not composed of others: it
    supplies matrices and leaves the index tables as constructed. *)
Definition writes_matrix (w : member_write) : bool :=
  match w with
  | write_restriction _ _ | write_prolongation _ _
  | write_interface_constraints _ => true
  | _ => false
  end.

(** The cell index whose primitivity the assertion of
    [face_system_to_component_index] checks for a face index, by
    dimension: in 1-d the face index itself, in 2-d and 3-d the argument
    of [is_primitive] in the respective disjunct. *)
Definition face_to_cell_index (dim : dimension) (GeometryInfo : Z -> Geometry)
    (fe : FiniteElement) (index : Z) : Z :=
  match dim with
  | dim1 => index
  | dim2 => face_to_cell_index_2d GeometryInfo fe index
  | dim3 => face_to_cell_index_3d GeometryInfo fe index
  end.

(** The extents of the [const] vectors: one entry per shape function. *)
Definition const_members_sized (fe : FiniteElement) : Prop :=
  size (restriction_is_additive_flags fe) = dofs_per_cell (fe_data fe)
  ∧ size (nonzero_components fe) = dofs_per_cell (fe_data fe)
  ∧ size (n_nonzero_components_table fe) = dofs_per_cell (fe_data fe).

(** ** Example elements *)

(** The constants of the reference hypercube: line, square and cube. *)
Definition hypercube (d : Z) : Geometry :=
  if d =? 1 then
    {| vertices_per_cell := 2; lines_per_cell := 1;
       vertices_per_face := 1; lines_per_face := 0;
       children_per_cell := 2 |}
  else if d =? 2 then
    {| vertices_per_cell := 4; lines_per_cell := 4;
       vertices_per_face := 2; lines_per_face := 1;
       children_per_cell := 4 |}
  else
    {| vertices_per_cell := 8; lines_per_cell := 12;
       vertices_per_face := 4; lines_per_face := 4;
       children_per_cell := 8 |}.

(** A scalar bilinear element on the square: one dof per vertex. *)
Definition q1_data : FiniteElementData :=
  {| dofs_per_vertex := 1; dofs_per_line := 0; dofs_per_quad := 0;
     dofs_per_hex := 0; dofs_per_face := 2; dofs_per_cell := 4;
     components := 1 |}.

Definition q1_2d : FiniteElement :=
  make_FiniteElement dim2 hypercube q1_data
    [false; false; false; false] [[true]; [true]; [true]; [true]].

(** A scalar quadratic element on the cube: one dof per vertex, line,
    quad and hex. *)
Definition q2_data_3d : FiniteElementData :=
  {| dofs_per_vertex := 1; dofs_per_line := 1; dofs_per_quad := 1;
     dofs_per_hex := 1; dofs_per_face := 9; dofs_per_cell := 27;
     components := 1 |}.

Definition q2_3d : FiniteElement :=
  make_FiniteElement dim3 hypercube q2_data_3d
    (replicate 27 false) (replicate 27 [true]).

(** A three-component element on the square composed of a piecewise
    constant (component 0, the dof of the quad) and a vector-valued base
    element with one dof per line which is non-zero in components 1 and 2.
    The shape functions 0..3 are not primitive, shape function 4 is; the
    entries of [system_to_component_table] for 0..3 carry no information
    and hold the value a default-constructed pair has. *)
Definition mixed_data : FiniteElementData :=
  {| dofs_per_vertex := 0; dofs_per_line := 1; dofs_per_quad := 1;
     dofs_per_hex := 0; dofs_per_face := 1; dofs_per_cell := 5;
     components := 3 |}.

Definition mixed_2d : FiniteElement :=
  derived
    (make_FiniteElement dim2 hypercube mixed_data
       [false; false; false; false; true]
       [[false; true; true]; [false; true; true]; [false; true; true];
        [false; true; true]; [true; false; false]])
    [write_system_to_component_table
       [(0, 0); (0, 0); (0, 0); (0, 0); (0, 0)];
     write_face_system_to_component_table [(0, 0)];
     write_system_to_base_table
       [((1, 0), 0); ((1, 0), 1); ((1, 0), 2); ((1, 0), 3); ((0, 0), 0)];
     write_face_system_to_base_table [((1, 0), 0)];
     write_component_to_base_table [(0, 0); (1, 0); (1, 1)]].

(** [q1_2d] after a derived class declared its restriction not
    implemented by resizing the matrix of child 1 to zero. *)
Definition q1_without_restriction : FiniteElement :=
  derived q1_2d [write_restriction 1 (FullMatrix.zero 0 0)].

(** [q1_2d] after a derived class wrote a [system_to_component_table]
    with one entry only, shorter than the face table. *)
Definition q1_short_table : FiniteElement :=
  derived q1_2d [write_system_to_component_table [(0, 0)]].

(** [q1_2d] with the hanging-node weights filled in. *)
Definition q1_with_constraints : FiniteElement :=
  derived q1_2d
    [write_interface_constraints
       {| FullMatrix.m := 1; FullMatrix.n := 2;
          FullMatrix.val := [0.5%float; 0.5%float] |}].

(** * Properties *)

(** ** Outcomes, vectors and unsigned arithmetic *)

Lemma wrap_small x : is_unsigned x → wrap x = x.
Proof. intros H. unfold wrap. apply Z.mod_small. exact H. Qed.

Lemma Assert_lt_in a b e : a < b → Assert (a <? b) e = Returns tt.
Proof. intros H. apply Z.ltb_lt in H. now rewrite H. Qed.

Lemma Assert_lt_out a b e : b <= a → Assert (a <? b) e = Throws e.
Proof. intros H. apply Z.ltb_ge in H. now rewrite H. Qed.

Lemma vec_at_Some {A} (v : list A) i a :
  v !! Z.to_nat i = Some a → vec_at v i = Returns a.
Proof. intros H. unfold vec_at. now rewrite H. Qed.

Lemma vec_at_in_range {A} (v : list A) i :
  0 <= i < size v → ∃ a, v !! Z.to_nat i = Some a ∧ vec_at v i = Returns a.
Proof.
  intros [H0 H1]. unfold size in H1.
  destruct (lookup_lt_is_Some_2 v (Z.to_nat i)) as [a Ha]; [lia|].
  exists a. split; [exact Ha | now apply vec_at_Some].
Qed.

Lemma lookup_size {A} (v : list A) i a :
  0 <= i → v !! Z.to_nat i = Some a → i < size v.
Proof.
  intros H0 H. apply lookup_lt_Some in H. unfold size. lia.
Qed.

(** [std::find] stops at the first element equal to the one sought. *)
Lemma std_find_first `{EqDecision A} (v : list A) (x : A) (i : nat) :
  v !! i = Some x →
  (∀ j y, (j < i)%nat → v !! j = Some y → y ≠ x) →
  std_find v x = i.
Proof.
  intros Hi Hfirst. unfold std_find.
  assert (list_find (λ y, y = x) v = Some (i, x)) as ->; [|reflexivity].
  apply list_find_Some. split; [exact Hi|]. split; [reflexivity|].
  intros j y Hj Hlt. now apply Hfirst with j.
Qed.

(** ** The primitivity check of the component queries *)

Lemma system_to_component_index_checked fe index e p :
  0 <= index →
  system_to_component_table fe !! Z.to_nat index = Some e →
  is_primitive fe index = Returns p →
  system_to_component_index fe index
  = if p then Returns e else Throws (ExcShapeFunctionNotPrimitive index).
Proof.
  intros H0 He Hp. unfold system_to_component_index.
  rewrite Assert_lt_in by (now apply lookup_size with e).
  cbn. rewrite Hp. cbn. destruct p; cbn; [|reflexivity].
  now apply vec_at_Some.
Qed.

(** The disjunction asserted by [face_system_to_component_index] is the
    primitivity of the cell index of the face dof. *)
Lemma face_primitivity_check dim G fe index :
  or_else (and_then (dim_int dim =? 1) (is_primitive fe index))
    (or_else (and_then (dim_int dim =? 2)
                (is_primitive fe (face_to_cell_index_2d G fe index)))
             (and_then (dim_int dim =? 3)
                (is_primitive fe (face_to_cell_index_3d G fe index))))
  = is_primitive fe (face_to_cell_index dim G fe index).
Proof.
  destruct dim; cbn;
    match goal with |- context [is_primitive fe ?c] =>
      destruct (is_primitive fe c) as [[|]| |] end; reflexivity.
Qed.

Lemma face_system_to_component_index_checked dim G fe index e p :
  0 <= index →
  face_system_to_component_table fe !! Z.to_nat index = Some e →
  is_primitive fe (face_to_cell_index dim G fe index) = Returns p →
  face_system_to_component_index dim G fe index
  = if p then Returns e else Throws (ExcShapeFunctionNotPrimitive index).
Proof.
  intros H0 He Hp. unfold face_system_to_component_index.
  rewrite Assert_lt_in by (now apply lookup_size with e).
  rewrite face_primitivity_check, Hp.
  cbn. destruct p; cbn; [|reflexivity].
  now apply vec_at_Some.
Qed.

(** ** C1: the inverse search *)

(** X10.  For a primitive shape function [i] within the table,
    [component_to_system_index] applied to the pair that
    [system_to_component_index i] returns gives [i] again whenever no
    smaller index holds the same pair in [system_to_component_table]:
    the search returns the first index at which the pair is stored. *)
Theorem component_to_system_index_first_entry fe i :
  is_unsigned i →
  i < size (system_to_component_table fe) →
  is_primitive fe i = Returns true →
  (∀ j, 0 <= j < i →
        system_to_component_table fe !! Z.to_nat j
        ≠ system_to_component_table fe !! Z.to_nat i) →
  ∃ c k, system_to_component_index fe i = Returns (c, k)
         ∧ component_to_system_index fe c k = Returns i.
Proof.
  intros Hu Hi Hp Hfirst.
  destruct (vec_at_in_range (system_to_component_table fe) i)
    as [[c k] [He _]]; [unfold is_unsigned in Hu; lia|].
  exists c, k. split.
  - rewrite (system_to_component_index_checked fe i (c, k) true);
      [reflexivity | apply Hu | exact He | exact Hp].
  - unfold component_to_system_index.
    rewrite (std_find_first _ (c, k) (Z.to_nat i)); [| exact He |].
    + rewrite bool_decide_true.
      * cbn. rewrite Z2Nat.id by apply Hu. now rewrite wrap_small.
      * apply lookup_lt_Some in He. lia.
    + intros j y Hj Hy ->. apply (Hfirst (Z.of_nat j)).
      * unfold is_unsigned in Hu. lia.
      * rewrite Nat2Z.id. now rewrite Hy, He.
Qed.

Lemma component_to_system_index_first_entry_witness :
  ∃ c k, system_to_component_index q1_2d 3 = Returns (c, k)
         ∧ component_to_system_index q1_2d c k = Returns 3.
Proof.
  apply (component_to_system_index_first_entry q1_2d 3).
  - unfold is_unsigned. lia.
  - vm_compute. reflexivity.
  - vm_compute. reflexivity.
  - intros j Hj.
    assert (j = 0 ∨ j = 1 ∨ j = 2) as [-> | [-> | ->]] by lia;
      vm_compute; discriminate.
Defined.


(** ** C4: the primitive-only queries *)

(** C4.  For every index [i] within [system_to_component_table] whose
    primitivity check returns [p], [system_to_component_index i] returns
    the table entry when [p] is true and signals
    [ExcShapeFunctionNotPrimitive] when it is false.  Independently, for
    every face index [f] within [face_system_to_component_table],
    [face_system_to_component_index f] does the same, where the shape
    function checked is the one with the corresponding cell index. *)
Theorem primitive_only_queries dim G fe :
  (∀ i ec p,
     0 <= i →
     system_to_component_table fe !! Z.to_nat i = Some ec →
     is_primitive fe i = Returns p →
     system_to_component_index fe i
     = if p then Returns ec else Throws (ExcShapeFunctionNotPrimitive i))
  ∧ (∀ f ef q,
       0 <= f →
       face_system_to_component_table fe !! Z.to_nat f = Some ef →
       is_primitive fe (face_to_cell_index dim G fe f) = Returns q →
       face_system_to_component_index dim G fe f
       = if q then Returns ef else Throws (ExcShapeFunctionNotPrimitive f)).
Proof.
  split.
  - intros i ec p Hi Hec Hp. now apply system_to_component_index_checked.
  - intros f ef q Hf Hef Hq.
    now apply face_system_to_component_index_checked.
Qed.

Lemma primitive_only_queries_witness :
  (system_to_component_index mixed_2d 0
   = Throws (ExcShapeFunctionNotPrimitive 0)
   ∧ system_to_component_index mixed_2d 4 = Returns (0, 0))
  ∧ (face_system_to_component_index dim2 hypercube mixed_2d 0
     = Throws (ExcShapeFunctionNotPrimitive 0)
     ∧ face_system_to_component_index dim2 hypercube q1_2d 1
       = Returns (0, 1)).
Proof.
  destruct (primitive_only_queries dim2 hypercube mixed_2d)
    as [Hcell Hface].
  destruct (primitive_only_queries dim2 hypercube q1_2d) as [_ Hface'].
  split; split.
  - apply (Hcell 0 (0, 0) false); first [lia | vm_compute; reflexivity].
  - apply (Hcell 4 (0, 0) true); first [lia | vm_compute; reflexivity].
  - apply (Hface 0 (0, 0) false); first [lia | vm_compute; reflexivity].
  - apply (Hface' 1 (0, 1) true); first [lia | vm_compute; reflexivity].
Defined.

(** ** C5: from face indices to cell indices *)

Ltac unwrap :=
  repeat match goal with
         | |- context [wrap ?t] =>
             rewrite (wrap_small t) by (unfold is_unsigned; lia)
         end.

Lemma face_system_to_component_index_remap dim G fe index :
  face_system_to_component_index dim G fe index
  = (Assert (index <? size (face_system_to_component_table fe))
       (ExcIndexRange index 0 (size (face_system_to_component_table fe)));;
     p ← is_primitive fe (face_to_cell_index dim G fe index);
     Assert p (ExcShapeFunctionNotPrimitive index);;
     vec_at (face_system_to_component_table fe) index).
Proof.
  unfold face_system_to_component_index.
  now rewrite face_primitivity_check.
Qed.

(** C5.  When the dof counts fit an [unsigned int], the cell index that
    [face_system_to_component_index] checks for a face index is: in 1-d
    the face index; in 2-d the face index itself below
    [vertices_per_face * dofs_per_vertex] and otherwise its offset past
    the [vertices_per_cell * dofs_per_vertex] vertex dofs of the cell; in
    3-d the same for the face-vertex dofs, the offset into the line block
    for the face-line dofs, and the offset past the vertex and the line
    block for the dofs inside the face.  It depends on the element only
    through [dofs_per_vertex] and [dofs_per_line]. *)
Theorem face_to_cell_index_formula dim G fe fe' index :
  let g := G (dim_int dim) in
  let dv := dofs_per_vertex (fe_data fe) in
  let dl := dofs_per_line (fe_data fe) in
  0 <= index → 0 <= dv → 0 <= dl →
  0 <= vertices_per_face g <= vertices_per_cell g →
  0 <= lines_per_face g <= lines_per_cell g →
  vertices_per_cell g * dv + lines_per_cell g * dl + index < 2 ^ 32 →
  dofs_per_vertex (fe_data fe') = dv →
  dofs_per_line (fe_data fe') = dl →
  face_to_cell_index dim G fe index
  = match dim with
    | dim1 => index
    | dim2 =>
        if index <? vertices_per_face g * dv then index
        else vertices_per_cell g * dv + (index - vertices_per_face g * dv)
    | dim3 =>
        if index <? vertices_per_face g * dv then index
        else if index <? vertices_per_face g * dv + lines_per_face g * dl
        then vertices_per_cell g * dv + (index - vertices_per_face g * dv)
        else vertices_per_cell g * dv + lines_per_cell g * dl
             + (index - vertices_per_face g * dv - lines_per_face g * dl)
    end
  ∧ face_to_cell_index dim G fe' index = face_to_cell_index dim G fe index
  ∧ face_system_to_component_index dim G fe index
    = (Assert (index <? size (face_system_to_component_table fe))
         (ExcIndexRange index 0 (size (face_system_to_component_table fe)));;
       p ← is_primitive fe (face_to_cell_index dim G fe index);
       Assert p (ExcShapeFunctionNotPrimitive index);;
       vec_at (face_system_to_component_table fe) index).
Proof.
  intros g dv dl. subst g dv dl.
  destruct dim; cbn [dim_int face_to_cell_index];
    intros Hi Hdv Hdl Hv Hl Hfit Hdv' Hdl';
    (split; [|split; [|apply face_system_to_component_index_remap]]);
    try reflexivity.
  - unfold face_to_cell_index_2d, uadd, usub, umul.
    assert (0 <= vertices_per_face (G 2) * dofs_per_vertex (fe_data fe)
            <= vertices_per_cell (G 2) * dofs_per_vertex (fe_data fe))
      by nia.
    assert (0 <= lines_per_cell (G 2) * dofs_per_line (fe_data fe)) by nia.
    set (A := vertices_per_face (G 2) * _) in *.
    set (C := vertices_per_cell (G 2) * _) in *.
    rewrite !(wrap_small A), (wrap_small C) by (unfold is_unsigned; lia).
    destruct (Z.ltb_spec index A); [reflexivity|].
    unwrap. reflexivity.
  - unfold face_to_cell_index_2d. now rewrite Hdv'.
  - unfold face_to_cell_index_3d, uadd, usub, umul.
    assert (0 <= vertices_per_face (G 3) * dofs_per_vertex (fe_data fe)
            <= vertices_per_cell (G 3) * dofs_per_vertex (fe_data fe))
      by nia.
    assert (0 <= lines_per_face (G 3) * dofs_per_line (fe_data fe)
            <= lines_per_cell (G 3) * dofs_per_line (fe_data fe)) by nia.
    set (A := vertices_per_face (G 3) * _) in *.
    set (B := lines_per_face (G 3) * _) in *.
    set (C := vertices_per_cell (G 3) * _) in *.
    set (D := lines_per_cell (G 3) * _) in *.
    rewrite !(wrap_small A), !(wrap_small B), !(wrap_small C),
      !(wrap_small D) by (unfold is_unsigned; lia).
    rewrite !(wrap_small (A + B)) by (unfold is_unsigned; lia).
    destruct (Z.ltb_spec index A); [reflexivity|].
    destruct (Z.ltb_spec index (A + B)); unwrap; reflexivity.
  - unfold face_to_cell_index_3d. now rewrite Hdv', Hdl'.
Qed.

Lemma face_to_cell_index_formula_witness :
  face_to_cell_index dim3 hypercube q2_3d 8 = 20
  ∧ face_to_cell_index dim3 hypercube q2_3d 5 = 9
  ∧ face_to_cell_index dim2 hypercube mixed_2d 0 = 0.
Proof.
  split; [|split].
  - apply (face_to_cell_index_formula dim3 hypercube q2_3d q2_3d 8);
      first [reflexivity | vm_compute; intuition discriminate].
  - apply (face_to_cell_index_formula dim3 hypercube q2_3d q2_3d 5);
      first [reflexivity | vm_compute; intuition discriminate].
  - apply (face_to_cell_index_formula dim2 hypercube mixed_2d mixed_2d 0);
      first [reflexivity | vm_compute; intuition discriminate].
Defined.

(** ** What the writes of a derived class leave alone *)

Lemma write_const fe w :
  fe_data (write fe w) = fe_data fe
  ∧ restriction_is_additive_flags (write fe w)
    = restriction_is_additive_flags fe
  ∧ nonzero_components (write fe w) = nonzero_components fe
  ∧ n_nonzero_components_table (write fe w) = n_nonzero_components_table fe
  ∧ cached_primitivity (write fe w) = cached_primitivity fe.
Proof. destruct w; cbn; auto. Qed.

Lemma derived_const fe ws :
  fe_data (derived fe ws) = fe_data fe
  ∧ restriction_is_additive_flags (derived fe ws)
    = restriction_is_additive_flags fe
  ∧ nonzero_components (derived fe ws) = nonzero_components fe
  ∧ n_nonzero_components_table (derived fe ws)
    = n_nonzero_components_table fe
  ∧ cached_primitivity (derived fe ws) = cached_primitivity fe.
Proof.
  revert fe. induction ws as [|w ws IH]; intros fe; [cbn; auto|].
  change (derived fe (w :: ws)) with (derived (write fe w) ws).
  destruct (IH (write fe w)) as (-> & -> & -> & -> & ->).
  apply write_const.
Qed.

Lemma derived_index_tables fe ws :
  forallb writes_matrix ws = true →
  system_to_component_table (derived fe ws) = system_to_component_table fe
  ∧ face_system_to_component_table (derived fe ws)
    = face_system_to_component_table fe
  ∧ system_to_base_table (derived fe ws) = system_to_base_table fe
  ∧ face_system_to_base_table (derived fe ws) = face_system_to_base_table fe
  ∧ component_to_base_table (derived fe ws) = component_to_base_table fe.
Proof.
  revert fe. induction ws as [|w ws IH]; intros fe Hws; [cbn; auto|].
  change (derived fe (w :: ws)) with (derived (write fe w) ws).
  cbn in Hws. apply andb_true_iff in Hws as [Hw Hws].
  destruct (IH (write fe w) Hws) as (-> & -> & -> & -> & ->).
  destruct w; cbn in Hw; try discriminate; cbn; auto.
Qed.

Lemma lookup_index_table {B} (g : Z → B) (n i : Z) :
  0 <= i < n → (g <$> seqZ 0 n) !! Z.to_nat i = Some (g i).
Proof.
  intros Hi. rewrite list_lookup_fmap, lookup_seqZ_lt by lia.
  cbn. f_equal. f_equal. lia.
Qed.

Lemma size_index_table {B} (g : Z → B) (n : Z) :
  0 <= n → size (g <$> seqZ 0 n) = n.
Proof.
  intros Hn. unfold size. rewrite length_fmap, length_seqZ. lia.
Qed.

Lemma system_to_base_index_in_range fe i e :
  0 <= i → system_to_base_table fe !! Z.to_nat i = Some e →
  system_to_base_index fe i = Returns e.
Proof.
  intros Hi He. unfold system_to_base_index.
  rewrite Assert_lt_in by (now apply lookup_size with e).
  cbn. now apply vec_at_Some.
Qed.

Lemma face_system_to_base_index_in_range fe i e :
  0 <= i → face_system_to_base_table fe !! Z.to_nat i = Some e →
  face_system_to_base_index fe i = Returns e.
Proof.
  intros Hi He. unfold face_system_to_base_index.
  rewrite Assert_lt_in by (now apply lookup_size with e).
  cbn. now apply vec_at_Some.
Qed.

(** ** C6: the base-index queries *)

(** C6.  [system_to_base_index] and [face_system_to_base_index] return
    the entry of their table for every index within it, whether or not
    the shape function is primitive; for an element that is not composed
    of others (one whose derived class wrote matrices only) the entry of
    index [i] is base 0, instance 0 and index [i]. *)
Theorem base_index_queries_total :
  (∀ fe i, 0 <= i < size (system_to_base_table fe) →
     ∃ e, system_to_base_table fe !! Z.to_nat i = Some e
          ∧ system_to_base_index fe i = Returns e)
  ∧ (∀ fe f, 0 <= f < size (face_system_to_base_table fe) →
       ∃ e, face_system_to_base_table fe !! Z.to_nat f = Some e
            ∧ face_system_to_base_index fe f = Returns e)
  ∧ (∀ dim G d flags nz ws i,
       forallb writes_matrix ws = true →
       0 <= i < dofs_per_cell d →
       system_to_base_index
         (derived (make_FiniteElement dim G d flags nz) ws) i
       = Returns ((0, 0), i))
  ∧ (∀ dim G d flags nz ws f,
       forallb writes_matrix ws = true →
       0 <= f < dofs_per_face d →
       face_system_to_base_index
         (derived (make_FiniteElement dim G d flags nz) ws) f
       = Returns ((0, 0), f)).
Proof.
  split; [|split; [|split]].
  - intros fe i Hi.
    destruct (vec_at_in_range (system_to_base_table fe) i Hi) as [e [He _]].
    exists e. split; [exact He|].
    apply system_to_base_index_in_range; [lia | exact He].
  - intros fe f Hf.
    destruct (vec_at_in_range (face_system_to_base_table fe) f Hf)
      as [e [He _]].
    exists e. split; [exact He|].
    apply face_system_to_base_index_in_range; [lia | exact He].
  - intros dim G d flags nz ws i Hws Hi.
    apply system_to_base_index_in_range; [lia|].
    destruct (derived_index_tables (make_FiniteElement dim G d flags nz)
                ws Hws) as (_ & _ & -> & _ & _).
    cbn. now apply (lookup_index_table (λ j, ((0, 0), j))).
  - intros dim G d flags nz ws f Hws Hf.
    apply face_system_to_base_index_in_range; [lia|].
    destruct (derived_index_tables (make_FiniteElement dim G d flags nz)
                ws Hws) as (_ & _ & _ & -> & _).
    cbn. now apply (lookup_index_table (λ j, ((0, 0), j))).
Qed.

Lemma base_index_queries_total_witness :
  (∃ e, system_to_base_table mixed_2d !! Z.to_nat 0 = Some e
        ∧ system_to_base_index mixed_2d 0 = Returns e)
  ∧ is_primitive mixed_2d 0 = Returns false
  ∧ system_to_base_index q1_without_restriction 3 = Returns ((0, 0), 3)
  ∧ face_system_to_base_index q1_without_restriction 1
    = Returns ((0, 0), 1).
Proof.
  destruct base_index_queries_total as (Hcell & _ & Hplain & Hface).
  split; [|split; [|split]].
  - apply Hcell. vm_compute. intuition discriminate.
  - vm_compute. reflexivity.
  - apply (Hplain dim2 hypercube q1_data); [reflexivity|].
    vm_compute. intuition discriminate.
  - apply (Hface dim2 hypercube q1_data); [reflexivity|].
    vm_compute. intuition discriminate.
Defined.

(** ** C2: the non-primitivity model *)

Lemma forallb_lookup {A} (f : A → bool) (l : list A) :
  forallb f l = true ↔ ∀ i x, l !! i = Some x → f x = true.
Proof.
  induction l as [|a l IH]; cbn.
  - split; [intros _ i x Hx; now rewrite lookup_nil in Hx | reflexivity].
  - rewrite andb_true_iff, IH. split.
    + intros [Ha Hl] [|i] x Hx; cbn in Hx; [congruence | eauto].
    + intros H. split; [apply (H 0%nat); reflexivity|].
      intros i x Hx. apply (H (S i)). exact Hx.
Qed.

Lemma forallb_false_lookup {A} (f : A → bool) (l : list A) :
  forallb f l = false ↔ ∃ i x, l !! i = Some x ∧ f x = false.
Proof.
  induction l as [|a l IH]; cbn.
  - split; [discriminate | intros (i & x & Hx & _)].
    now rewrite lookup_nil in Hx.
  - rewrite andb_false_iff, IH. split.
    + intros [Ha | (i & x & Hx & Hf)].
      * exists 0%nat, a. auto.
      * exists (S i), x. auto.
    + intros ([|i] & x & Hx & Hf); cbn in Hx.
      * left. congruence.
      * right. eauto.
Qed.

Lemma lookup_n_nonzero_components_table nz i row :
  nz !! i = Some row →
  compute_n_nonzero_components nz !! i = Some (std_count row true).
Proof.
  intros H. unfold compute_n_nonzero_components.
  now rewrite list_lookup_fmap, H.
Qed.

(** C2.  In every element, for every shape function [i] below
    [dofs_per_cell]: [n_nonzero_components i] is the number of [true]
    entries of the set [get_nonzero_components i] returns, and
    [is_primitive i] is true exactly when that number is 1; the cached
    answer of [is_primitive ()] is true exactly when [is_primitive i] is
    true for every such [i]. *)
Theorem primitivity_model dim G d flags nz ws :
  size nz = dofs_per_cell d →
  let fe := derived (make_FiniteElement dim G d flags nz) ws in
  (∀ i, 0 <= i < dofs_per_cell d →
     ∃ row n,
       get_nonzero_components fe i = Returns row
       ∧ n = std_count row true
       ∧ n_nonzero_components fe i = Returns n
       ∧ is_primitive fe i = Returns (n =? 1)
       ∧ (is_primitive fe i = Returns true ↔ n = 1))
  ∧ (is_primitive_fe fe = true
     ↔ ∀ i, 0 <= i < dofs_per_cell d → is_primitive fe i = Returns true).
Proof.
  intros Hsize fe.
  destruct (derived_const (make_FiniteElement dim G d flags nz) ws)
    as (Hd & _ & Hnz & Htab & Hc).
  fold fe in Hd, Hnz, Htab, Hc. cbn in Hd, Hnz, Htab, Hc.
  assert (∀ i, 0 <= i < dofs_per_cell d →
            ∃ row, nz !! Z.to_nat i = Some row
                   ∧ is_primitive fe i
                     = Returns (std_count row true =? 1)) as Hprim.
  { intros i Hi.
    destruct (vec_at_in_range nz i) as [row [Hrow _]]; [lia|].
    exists row. split; [exact Hrow|].
    unfold is_primitive. rewrite Hd, Htab.
    rewrite Assert_lt_in by lia. cbn.
    rewrite (vec_at_Some _ _ _
               (lookup_n_nonzero_components_table _ _ _ Hrow)).
    reflexivity. }
  split.
  - intros i Hi. destruct (Hprim i Hi) as (row & Hrow & Hp).
    exists row, (std_count row true).
    split; [|split; [reflexivity|split; [|split; [exact Hp|]]]].
    + unfold get_nonzero_components. rewrite Hd, Hnz.
      rewrite Assert_lt_in by lia. cbn. now apply vec_at_Some.
    + unfold n_nonzero_components. rewrite Hd, Htab.
      rewrite Assert_lt_in by lia. cbn.
      now apply vec_at_Some, lookup_n_nonzero_components_table.
    + rewrite Hp. split.
      * intros [= H]. now apply Z.eqb_eq.
      * intros ->. reflexivity.
  - unfold is_primitive_fe. rewrite Hc, forallb_lookup. split.
    + intros Hall i Hi. destruct (Hprim i Hi) as (row & Hrow & ->).
      f_equal. apply (Hall (Z.to_nat i)).
      now apply lookup_n_nonzero_components_table.
    + intros Hall i k Hk.
      assert (0 <= Z.of_nat i < dofs_per_cell d) as Hi.
      { apply lookup_lt_Some in Hk.
        unfold compute_n_nonzero_components in Hk.
        rewrite length_fmap in Hk. unfold size in Hsize. lia. }
      destruct (Hprim _ Hi) as (row & Hrow & Hp).
      rewrite (Hall _ Hi) in Hp. injection Hp as Hp.
      rewrite Nat2Z.id in Hrow.
      apply lookup_n_nonzero_components_table in Hrow.
      congruence.
Qed.

Lemma primitivity_model_witness :
  (∀ i, 0 <= i < 5 →
     ∃ row n,
       get_nonzero_components mixed_2d i = Returns row
       ∧ n = std_count row true
       ∧ n_nonzero_components mixed_2d i = Returns n
       ∧ is_primitive mixed_2d i = Returns (n =? 1)
       ∧ (is_primitive mixed_2d i = Returns true ↔ n = 1))
  ∧ (is_primitive_fe mixed_2d = true
     ↔ ∀ i, 0 <= i < 5 → is_primitive mixed_2d i = Returns true).
Proof.
  apply (primitivity_model dim2 hypercube mixed_data).
  vm_compute. reflexivity.
Defined.

(** ** C7: transfer and constraint matrices that are not implemented *)

Lemma get_restriction_matrix_in_range dim G fe child M :
  0 <= child < children_per_cell (G (dim_int dim)) →
  restriction fe !! Z.to_nat child = Some M →
  get_restriction_matrix dim G fe child
  = if FullMatrix.zero_sized M then Throws ExcProjectionVoid else Returns M.
Proof.
  intros Hc HM. unfold get_restriction_matrix.
  rewrite Assert_lt_in by lia. cbn.
  rewrite (vec_at_Some _ _ _ HM). cbn.
  now destruct (FullMatrix.zero_sized M).
Qed.

Lemma get_prolongation_matrix_in_range dim G fe child M :
  0 <= child < children_per_cell (G (dim_int dim)) →
  prolongation fe !! Z.to_nat child = Some M →
  get_prolongation_matrix dim G fe child
  = if FullMatrix.zero_sized M then Throws ExcEmbeddingVoid else Returns M.
Proof.
  intros Hc HM. unfold get_prolongation_matrix.
  rewrite Assert_lt_in by lia. cbn.
  rewrite (vec_at_Some _ _ _ HM). cbn.
  now destruct (FullMatrix.zero_sized M).
Qed.

(** A probe over an array of one matrix per child answers [false] exactly
    when the accessor fails for some child. *)
Lemma probe_false_iff (get : Z → outcome FullMatrix.t) e
    (array : list FullMatrix.t) (n : Z) :
  size array = n →
  (∀ child M, 0 <= child < n → array !! Z.to_nat child = Some M →
     get child = if FullMatrix.zero_sized M then Throws e else Returns M) →
  forallb (λ M, negb (FullMatrix.zero_sized M)) array = false
  ↔ ∃ child, 0 <= child < n ∧ get child = Throws e.
Proof.
  intros Hn Hget. rewrite forallb_false_lookup. split.
  - intros (i & M & HM & Hz). apply negb_false_iff in Hz.
    exists (Z.of_nat i).
    assert (0 <= Z.of_nat i < n) as Hi.
    { apply lookup_lt_Some in HM. unfold size in Hn. lia. }
    split; [exact Hi|].
    rewrite (Hget _ M Hi) by (now rewrite Nat2Z.id). now rewrite Hz.
  - intros (child & Hc & Hthrow).
    destruct (vec_at_in_range array child) as [M [HM _]]; [lia|].
    exists (Z.to_nat child), M. split; [exact HM|].
    rewrite (Hget _ M Hc HM) in Hthrow.
    destruct (FullMatrix.zero_sized M); [reflexivity | discriminate].
Qed.

(** C7.  For a child below [children_per_cell],
    [get_restriction_matrix] signals [ExcProjectionVoid] when the stored
    matrix is zero-sized and returns the stored matrix otherwise, and
    [restriction_is_implemented] is false exactly when the accessor
    signals for some child; the same holds of [get_prolongation_matrix]
    with [ExcEmbeddingVoid] and [prolongation_is_implemented], and of
    [constraints] with [ExcConstraintsVoid] and
    [constraints_are_implemented]. *)
Theorem not_implemented_is_prechecked dim G fe :
  let n := children_per_cell (G (dim_int dim)) in
  size (restriction fe) = n →
  size (prolongation fe) = n →
  (∀ child, 0 <= child < n →
     ∃ M, restriction fe !! Z.to_nat child = Some M
          ∧ get_restriction_matrix dim G fe child
            = if FullMatrix.zero_sized M
              then Throws ExcProjectionVoid else Returns M)
  ∧ (restriction_is_implemented fe = false
     ↔ ∃ child, 0 <= child < n
                ∧ get_restriction_matrix dim G fe child
                  = Throws ExcProjectionVoid)
  ∧ (∀ child, 0 <= child < n →
       ∃ M, prolongation fe !! Z.to_nat child = Some M
            ∧ get_prolongation_matrix dim G fe child
              = if FullMatrix.zero_sized M
                then Throws ExcEmbeddingVoid else Returns M)
  ∧ (prolongation_is_implemented fe = false
     ↔ ∃ child, 0 <= child < n
                ∧ get_prolongation_matrix dim G fe child
                  = Throws ExcEmbeddingVoid)
  ∧ constraints fe
    = (if FullMatrix.zero_sized (interface_constraints fe)
       then Throws ExcConstraintsVoid
       else Returns (interface_constraints fe))
  ∧ (constraints_are_implemented fe = false
     ↔ constraints fe = Throws ExcConstraintsVoid).
Proof.
  intros n Hr Hp. subst n.
  split; [|split; [|split; [|split; [|split]]]].
  - intros child Hc.
    destruct (vec_at_in_range (restriction fe) child) as [M [HM _]];
      [lia|].
    exists M. split; [exact HM|].
    now apply get_restriction_matrix_in_range.
  - apply probe_false_iff; [exact Hr|].
    intros child M Hc HM. now apply get_restriction_matrix_in_range.
  - intros child Hc.
    destruct (vec_at_in_range (prolongation fe) child) as [M [HM _]];
      [lia|].
    exists M. split; [exact HM|].
    now apply get_prolongation_matrix_in_range.
  - apply probe_false_iff; [exact Hp|].
    intros child M Hc HM. now apply get_prolongation_matrix_in_range.
  - unfold constraints.
    now destruct (FullMatrix.zero_sized (interface_constraints fe)).
  - unfold constraints, constraints_are_implemented.
    destruct (FullMatrix.zero_sized (interface_constraints fe)); cbn.
    + split; reflexivity.
    + split; discriminate.
Qed.

Lemma not_implemented_is_prechecked_witness :
  restriction_is_implemented q1_without_restriction = false
  ∧ get_restriction_matrix dim2 hypercube q1_without_restriction 1
    = Throws ExcProjectionVoid.
Proof.
  destruct (not_implemented_is_prechecked dim2 hypercube
              q1_without_restriction)
    as (Hget & Hprobe & _); [reflexivity | reflexivity |].
  assert (get_restriction_matrix dim2 hypercube q1_without_restriction 1
          = Throws ExcProjectionVoid) as Hthrow.
  { destruct (Hget 1) as (M & HM & ->); [vm_compute; intuition discriminate|].
    injection HM as <-. reflexivity. }
  split; [|exact Hthrow].
  apply Hprobe. exists 1. split; [|exact Hthrow].
  vm_compute. intuition discriminate.
Defined.

(** ** C8: the size of the interface constraints *)

(** C8.  [interface_constraints_size] is a function of the dimension and
    of the dof counts per vertex, line and quad: 0 x 0 in 1-d; in 2-d the
    rows are the dofs of the middle vertex and of the two child lines and
    the columns those of the two end vertices and of the parent line, so
    1 x 2 for one dof per vertex and none per line.  No write of a derived
    class changes it, and the constructor gives the matrix that size. *)
Theorem interface_constraints_size_spec :
  (∀ d, interface_constraints_size dim1 d = (0, 0))
  ∧ (∀ d, interface_constraints_size dim2 d
          = (dofs_per_vertex d + (dofs_per_line d + dofs_per_line d),
             (dofs_per_vertex d + dofs_per_vertex d) + dofs_per_line d))
  ∧ (∀ d, dofs_per_vertex d = 1 → dofs_per_line d = 0 →
          interface_constraints_size dim2 d = (1, 2))
  ∧ (∀ dim d d',
       dofs_per_vertex d = dofs_per_vertex d' →
       dofs_per_line d = dofs_per_line d' →
       dofs_per_quad d = dofs_per_quad d' →
       interface_constraints_size dim d = interface_constraints_size dim d')
  ∧ (∀ dim fe ws,
       interface_constraints_size dim (fe_data (derived fe ws))
       = interface_constraints_size dim (fe_data fe))
  ∧ (∀ dim G d flags nz,
       let M := interface_constraints (make_FiniteElement dim G d flags nz) in
       (FullMatrix.m M, FullMatrix.n M) = interface_constraints_size dim d).
Proof.
  split; [|split; [|split; [|split; [|split]]]].
  - reflexivity.
  - intros d. cbn. f_equal; lia.
  - intros d Hv Hl. cbn. rewrite Hv, Hl. reflexivity.
  - intros dim d d' Hv Hl Hq. unfold interface_constraints_size.
    now rewrite Hv, Hl, Hq.
  - intros dim fe ws.
    destruct (derived_const fe ws) as (-> & _). reflexivity.
  - intros dim G d flags nz. cbn.
    now destruct (interface_constraints_size dim d).
Qed.

Lemma interface_constraints_size_spec_witness :
  interface_constraints_size dim2 q1_data = (1, 2)
  ∧ interface_constraints_size dim2
      (fe_data (derived q1_2d
                  [write_interface_constraints (FullMatrix.zero 0 0)]))
    = (1, 2)
  ∧ (FullMatrix.m (interface_constraints q1_2d),
     FullMatrix.n (interface_constraints q1_2d)) = (1, 2).
Proof.
  destruct interface_constraints_size_spec
    as (_ & _ & Hscalar & _ & Hderived & Hctor).
  split; [|split].
  - apply Hscalar; reflexivity.
  - rewrite Hderived. apply Hscalar; reflexivity.
  - apply (Hctor dim2 hypercube q1_data).
Defined.

(** ** C9: indices out of range *)

Ltac out_of_range :=
  match goal with
  | |- (Assert (?i <? ?b) ?e;; _) = Throws ?e =>
      rewrite (Assert_lt_out i b e) by lia; reflexivity
  end.

Ltac in_range v :=
  match goal with
  | |- ∃ _, (Assert (?i <? ?b) ?e;; _) = Returns _ =>
      rewrite (Assert_lt_in i b e) by lia; cbn;
      destruct (vec_at_in_range v i) as [a [_ ->]]; [lia | cbn; eauto]
  end.

(** C9.  Each query that takes an index signals [ExcIndexRange] when the
    index is not below its bound: [dofs_per_cell] for
    [get_nonzero_components], [n_nonzero_components], [is_primitive] and
    [restriction_is_additive], the extent of its table for the others.
    For an index below the bound the query returns a value; the
    component queries do so when the shape function is primitive. *)
Theorem index_queries_range dim G fe index :
  0 <= index →
  const_members_sized fe →
  let n := dofs_per_cell (fe_data fe) in
  (n <= index →
     get_nonzero_components fe index = Throws (ExcIndexRange index 0 n)
     ∧ n_nonzero_components fe index = Throws (ExcIndexRange index 0 n)
     ∧ is_primitive fe index = Throws (ExcIndexRange index 0 n)
     ∧ restriction_is_additive fe index = Throws (ExcIndexRange index 0 n))
  ∧ (size (system_to_component_table fe) <= index →
       system_to_component_index fe index
       = Throws (ExcIndexRange index 0 (size (system_to_component_table fe))))
  ∧ (size (face_system_to_component_table fe) <= index →
       face_system_to_component_index dim G fe index
       = Throws (ExcIndexRange index 0
                   (size (face_system_to_component_table fe))))
  ∧ (size (system_to_base_table fe) <= index →
       system_to_base_index fe index
       = Throws (ExcIndexRange index 0 (size (system_to_base_table fe))))
  ∧ (size (face_system_to_base_table fe) <= index →
       face_system_to_base_index fe index
       = Throws (ExcIndexRange index 0 (size (face_system_to_base_table fe))))
  ∧ (size (component_to_base_table fe) <= index →
       component_to_base fe index
       = Throws (ExcIndexRange index 0 (size (component_to_base_table fe))))
  ∧ (index < n →
       (∃ v, get_nonzero_components fe index = Returns v)
       ∧ (∃ v, n_nonzero_components fe index = Returns v)
       ∧ (∃ v, is_primitive fe index = Returns v)
       ∧ (∃ v, restriction_is_additive fe index = Returns v))
  ∧ (index < size (system_to_component_table fe) →
       is_primitive fe index = Returns true →
       ∃ v, system_to_component_index fe index = Returns v)
  ∧ (index < size (face_system_to_component_table fe) →
       is_primitive fe (face_to_cell_index dim G fe index) = Returns true →
       ∃ v, face_system_to_component_index dim G fe index = Returns v)
  ∧ (index < size (system_to_base_table fe) →
       ∃ v, system_to_base_index fe index = Returns v)
  ∧ (index < size (face_system_to_base_table fe) →
       ∃ v, face_system_to_base_index fe index = Returns v)
  ∧ (index < size (component_to_base_table fe) →
       ∃ v, component_to_base fe index = Returns v).
Proof.
  intros H0 (Hflags & Hnz & Htab) n. subst n.
  repeat match goal with |- _ ∧ _ => split end.
  - intros Hout. repeat split.
    + unfold get_nonzero_components. out_of_range.
    + unfold n_nonzero_components. out_of_range.
    + unfold is_primitive. out_of_range.
    + unfold restriction_is_additive. out_of_range.
  - intros Hout. unfold system_to_component_index. out_of_range.
  - intros Hout. unfold face_system_to_component_index. out_of_range.
  - intros Hout. unfold system_to_base_index. out_of_range.
  - intros Hout. unfold face_system_to_base_index. out_of_range.
  - intros Hout. unfold component_to_base. out_of_range.
  - intros Hin. repeat match goal with |- _ ∧ _ => split end.
    + unfold get_nonzero_components. in_range (nonzero_components fe).
    + unfold n_nonzero_components.
      in_range (n_nonzero_components_table fe).
    + unfold is_primitive. in_range (n_nonzero_components_table fe).
    + unfold restriction_is_additive.
      in_range (restriction_is_additive_flags fe).
  - intros Hin Hp.
    destruct (vec_at_in_range (system_to_component_table fe) index)
      as [e [He _]]; [lia|].
    exists e. now rewrite (system_to_component_index_checked fe index e true).
  - intros Hin Hp.
    destruct (vec_at_in_range (face_system_to_component_table fe) index)
      as [e [He _]]; [lia|].
    exists e.
    now rewrite (face_system_to_component_index_checked dim G fe index e true).
  - intros Hin. unfold system_to_base_index.
    in_range (system_to_base_table fe).
  - intros Hin. unfold face_system_to_base_index.
    in_range (face_system_to_base_table fe).
  - intros Hin. unfold component_to_base.
    in_range (component_to_base_table fe).
Qed.

Lemma index_queries_range_witness :
  (is_primitive q1_2d 4 = Throws (ExcIndexRange 4 0 4)
   ∧ face_system_to_component_index dim2 hypercube q1_2d 4
     = Throws (ExcIndexRange 4 0 2)
   ∧ component_to_base q1_2d 4 = Throws (ExcIndexRange 4 0 1))
  ∧ ((∃ v, restriction_is_additive q1_2d 1 = Returns v)
     ∧ (∃ v, face_system_to_component_index dim2 hypercube q1_2d 1
             = Returns v)).
Proof.
  assert (const_members_sized q1_2d) as Hsized by (repeat split).
  split.
  - pose proof (index_queries_range dim2 hypercube q1_2d 4
                  ltac:(lia) Hsized) as H.
    cbv zeta in H.
    destruct H as (Hcell & _ & Hface & _ & _ & Hbase & _).
    split; [|split].
    + apply Hcell. vm_compute. discriminate.
    + apply Hface. vm_compute. discriminate.
    + apply Hbase. vm_compute. discriminate.
  - pose proof (index_queries_range dim2 hypercube q1_2d 1
                  ltac:(lia) Hsized) as H.
    cbv zeta in H.
    destruct H as (_ & _ & _ & _ & _ & _ & Hcell & _ & Hface & _).
    split.
    + apply Hcell. vm_compute. reflexivity.
    + apply Hface; vm_compute; reflexivity.
Defined.

(** ** C10: the comparison operator *)

(** C10.  [operator ==] does not look at [restriction] and
    [prolongation]: replacing them in either operand leaves its answer
    unchanged, and an element equals the one that differs from it only in
    a restriction matrix, and the one that differs only in a prolongation
    matrix.  It does look at [interface_constraints]: an element is
    unequal to the one that differs from it only there. *)
Theorem operator_eq_skips_transfer_matrices :
  (∀ fe1 fe2 r1 p1 r2 p2,
     operator_eq (with_matrices fe1 r1 p1 (interface_constraints fe1))
                 (with_matrices fe2 r2 p2 (interface_constraints fe2))
     = operator_eq fe1 fe2)
  ∧ (∃ fe r,
       r ≠ restriction fe
       ∧ operator_eq fe (with_matrices fe r (prolongation fe)
                                       (interface_constraints fe)) = true)
  ∧ (∃ fe p,
       p ≠ prolongation fe
       ∧ operator_eq fe (with_matrices fe (restriction fe) p
                                       (interface_constraints fe)) = true)
  ∧ (∃ fe c,
       operator_eq fe fe = true
       ∧ operator_eq fe (with_matrices fe (restriction fe) (prolongation fe)
                                       c) = false).
Proof.
  split; [|split; [|split]].
  - reflexivity.
  - exists q1_2d, (<[1%nat := FullMatrix.zero 0 0]> (restriction q1_2d)).
    split; [|vm_compute; reflexivity].
    intros H. apply (f_equal (λ l, FullMatrix.m <$> l !! 1%nat)) in H.
    vm_compute in H. discriminate.
  - exists q1_2d, (<[1%nat := FullMatrix.zero 0 0]> (prolongation q1_2d)).
    split; [|vm_compute; reflexivity].
    intros H. apply (f_equal (λ l, FullMatrix.m <$> l !! 1%nat)) in H.
    vm_compute in H. discriminate.
  - exists q1_2d, (interface_constraints q1_with_constraints).
    split; vm_compute; reflexivity.
Qed.

(** * Further properties of the index queries *)

(** ** The inverse search of [component_to_system_index] *)

(** The two ways the search can end: at the first position holding the
    pair, which is returned, or at the end of the table, which is
    signalled. *)
Lemma component_to_system_index_cases fe c k :
  (∃ pos : nat,
     list_find (λ y, y = (c, k)) (system_to_component_table fe)
     = Some (pos, (c, k))
     ∧ component_to_system_index fe c k = Returns (wrap (Z.of_nat pos)))
  ∨ (list_find (λ y, y = (c, k)) (system_to_component_table fe) = None
     ∧ component_to_system_index fe c k
       = Throws (ExcComponentIndexInvalid (to_int c) (to_int k))).
Proof.
  unfold component_to_system_index, std_find.
  destruct (list_find _ (system_to_component_table fe)) as [[pos y]|] eqn:E.
  - left. exists pos.
    pose proof E as E'. apply list_find_Some in E' as (Hl & -> & _).
    split; [reflexivity|].
    apply lookup_lt_Some in Hl.
    rewrite bool_decide_true by lia. reflexivity.
  - right. split; [reflexivity|].
    rewrite bool_decide_false by (intros H; now apply H). reflexivity.
Qed.

Lemma component_to_system_index_inv fe c k r :
  size (system_to_component_table fe) <= 2 ^ 32 →
  component_to_system_index fe c k = Returns r →
  0 <= r < size (system_to_component_table fe)
  ∧ system_to_component_table fe !! Z.to_nat r = Some (c, k)
  ∧ ∀ j y, (j < Z.to_nat r)%nat →
           system_to_component_table fe !! j = Some y → y ≠ (c, k).
Proof.
  intros Hfit Hr.
  destruct (component_to_system_index_cases fe c k)
    as [(pos & Hfind & Hret) | (_ & Hthrow)]; [|congruence].
  rewrite Hret in Hr. injection Hr as <-.
  apply list_find_Some in Hfind as (Hl & _ & Hfirst).
  pose proof (lookup_lt_Some _ _ _ Hl) as Hlt. unfold size in *.
  rewrite wrap_small by (unfold is_unsigned; lia).
  rewrite Nat2Z.id. split; [lia|]. split; [exact Hl|].
  intros j y Hj Hy. now apply (Hfirst j y).
Qed.

(** X1.  [component_to_system_index] signals [ExcComponentIndexInvalid],
    with its two arguments converted to [int], exactly when the pair
    occurs nowhere in [system_to_component_table] (so for every pair
    when the table is empty), and it returns the position of an entry
    holding the pair exactly when the pair occurs in the table. *)
Theorem component_to_system_index_missing_pair fe c k :
  ((c, k) ∉ system_to_component_table fe
   ↔ component_to_system_index fe c k
     = Throws (ExcComponentIndexInvalid (to_int c) (to_int k)))
  ∧ ((c, k) ∈ system_to_component_table fe
     ↔ ∃ pos : nat,
         system_to_component_table fe !! pos = Some (c, k)
         ∧ component_to_system_index fe c k
           = Returns (wrap (Z.of_nat pos))).
Proof.
  destruct (component_to_system_index_cases fe c k)
    as [(pos & Hfind & Hret) | (Hfind & Hthrow)].
  - apply list_find_Some in Hfind as (Hl & _ & _).
    assert ((c, k) ∈ system_to_component_table fe) as Hin
      by (now apply list_elem_of_lookup_2 with pos).
    split; split.
    + intros Hnot. now destruct Hnot.
    + rewrite Hret. discriminate.
    + intros _. exists pos. split; [exact Hl | exact Hret].
    + intros _. exact Hin.
  - apply list_find_None in Hfind. rewrite Forall_forall in Hfind.
    assert ((c, k) ∉ system_to_component_table fe) as Hnot
      by (intros Hin; now apply (Hfind _ Hin)).
    split; split.
    + intros _. exact Hthrow.
    + intros _. exact Hnot.
    + intros Hin. now destruct Hnot.
    + intros (pos & _ & Hret). rewrite Hthrow in Hret. discriminate.
Qed.

Lemma component_to_system_index_missing_pair_witness :
  component_to_system_index q1_2d 4294967295 0
  = Throws (ExcComponentIndexInvalid (-1) 0)
  ∧ ∃ pos : nat,
      system_to_component_table q1_2d !! pos = Some (0, 2)
      ∧ component_to_system_index q1_2d 0 2 = Returns (wrap (Z.of_nat pos)).
Proof.
  split.
  - apply (component_to_system_index_missing_pair q1_2d 4294967295 0).
    intros H. apply list_elem_of_In in H. vm_compute in H.
    intuition discriminate.
  - apply (component_to_system_index_missing_pair q1_2d 0 2).
    apply list_elem_of_In. vm_compute. intuition.
Defined.

(** X2.  When [component_to_system_index] returns [r] (for a table whose
    extent fits an [unsigned int]), [r] lies within the table, the entry
    at [r] is the pair that was sought, and no smaller index holds that
    pair. *)
Theorem component_to_system_index_returns_first fe c k r :
  size (system_to_component_table fe) <= 2 ^ 32 →
  component_to_system_index fe c k = Returns r →
  0 <= r < size (system_to_component_table fe)
  ∧ system_to_component_table fe !! Z.to_nat r = Some (c, k)
  ∧ ∀ j, 0 <= j < r →
         system_to_component_table fe !! Z.to_nat j ≠ Some (c, k).
Proof.
  intros Hfit Hr.
  destruct (component_to_system_index_inv fe c k r Hfit Hr)
    as (Hrange & Hl & Hfirst).
  split; [exact Hrange|]. split; [exact Hl|].
  intros j Hj Hy. apply (Hfirst (Z.to_nat j) (c, k)); [lia | exact Hy | done].
Qed.

Lemma component_to_system_index_returns_first_witness :
  0 <= 2 < size (system_to_component_table q1_2d)
  ∧ system_to_component_table q1_2d !! Z.to_nat 2 = Some (0, 2)
  ∧ ∀ j, 0 <= j < 2 →
         system_to_component_table q1_2d !! Z.to_nat j ≠ Some (0, 2).
Proof.
  apply (component_to_system_index_returns_first q1_2d 0 2 2).
  - vm_compute. discriminate.
  - vm_compute. reflexivity.
Defined.

(** X3.  [system_to_component_index] undoes [component_to_system_index]:
    when the search for a pair returns [r], the query at [r] returns that
    pair if shape function [r] is primitive.  The search itself does not
    look at primitivity: when [r] is not primitive the query at [r]
    signals [ExcShapeFunctionNotPrimitive]. *)
Theorem system_to_component_index_of_found fe c k r p :
  size (system_to_component_table fe) <= 2 ^ 32 →
  component_to_system_index fe c k = Returns r →
  is_primitive fe r = Returns p →
  system_to_component_index fe r
  = if p then Returns (c, k) else Throws (ExcShapeFunctionNotPrimitive r).
Proof.
  intros Hfit Hr Hp.
  destruct (component_to_system_index_inv fe c k r Hfit Hr)
    as (Hrange & Hl & _).
  apply system_to_component_index_checked; [lia | exact Hl | exact Hp].
Qed.

Lemma system_to_component_index_of_found_witness :
  system_to_component_index q1_2d 3 = Returns (0, 3)
  ∧ system_to_component_index mixed_2d 0
    = Throws (ExcShapeFunctionNotPrimitive 0).
Proof.
  split.
  - apply (system_to_component_index_of_found q1_2d 0 3 3 true);
      vm_compute; first [reflexivity | discriminate].
  - apply (system_to_component_index_of_found mixed_2d 0 0 0 false);
      vm_compute; first [reflexivity | discriminate].
Defined.

(** X4.  [component_to_system_index] never returns the same shape
    function for two different pairs (for a table whose extent fits an
    [unsigned int]). *)
Theorem component_to_system_index_injective fe c k c' k' r :
  size (system_to_component_table fe) <= 2 ^ 32 →
  component_to_system_index fe c k = Returns r →
  component_to_system_index fe c' k' = Returns r →
  (c, k) = (c', k').
Proof.
  intros Hfit Hr Hr'.
  destruct (component_to_system_index_inv fe c k r Hfit Hr) as (_ & Hl & _).
  destruct (component_to_system_index_inv fe c' k' r Hfit Hr')
    as (_ & Hl' & _).
  congruence.
Qed.

Lemma component_to_system_index_injective_witness :
  component_to_system_index q1_2d 0 1 = Returns 1
  ∧ (0, 1) = (0, 1).
Proof.
  split; [vm_compute; reflexivity|].
  apply (component_to_system_index_injective q1_2d 0 1 0 1 1).
  - vm_compute. discriminate.
  - vm_compute. reflexivity.
  - vm_compute. reflexivity.
Defined.

(** ** What a returned component entry guarantees *)

Lemma is_primitive_true_inv fe i :
  is_primitive fe i = Returns true →
  i < dofs_per_cell (fe_data fe)
  ∧ n_nonzero_components fe i = Returns 1.
Proof.
  unfold is_primitive, n_nonzero_components. cbv zeta.
  destruct (Z.ltb_spec i (dofs_per_cell (fe_data fe))) as [Hi|Hi];
    cbn; [|discriminate].
  destruct (vec_at (n_nonzero_components_table fe) i) as [n| |];
    cbn; try discriminate.
  intros [= Hn]. apply Z.eqb_eq in Hn as ->. split; [exact Hi | reflexivity].
Qed.

Lemma vec_at_Returns_inv {A} (v : list A) i a :
  vec_at v i = Returns a → v !! Z.to_nat i = Some a.
Proof.
  unfold vec_at. destruct (v !! Z.to_nat i); [|discriminate].
  now intros [= ->].
Qed.

Lemma face_to_cell_index_nonneg dim G fe index :
  0 <= index → 0 <= face_to_cell_index dim G fe index.
Proof.
  intros Hi.
  assert (∀ x, 0 <= wrap x) as Hwrap
    by (intros x; unfold wrap; apply Z.mod_pos_bound; lia).
  destruct dim; cbn [face_to_cell_index]; [exact Hi | |].
  - unfold face_to_cell_index_2d, uadd. cbv zeta.
    destruct (_ <? _); [exact Hi | apply Hwrap].
  - unfold face_to_cell_index_3d, uadd. cbv zeta.
    destruct (_ <? _); [exact Hi|].
    destruct (_ <? _); apply Hwrap.
Qed.

(** X5.  A value returned by [system_to_component_index] is the entry of
    the table at that index, and the index is then a shape function
    (below [dofs_per_cell]) with exactly one non-zero component: the
    query never hands out the entry of a non-primitive shape function or
    of an index at or above [dofs_per_cell], however long the table is. *)
Theorem system_to_component_index_returns fe i e :
  0 <= i →
  system_to_component_index fe i = Returns e →
  system_to_component_table fe !! Z.to_nat i = Some e
  ∧ i < dofs_per_cell (fe_data fe)
  ∧ n_nonzero_components fe i = Returns 1.
Proof.
  intros H0. unfold system_to_component_index.
  destruct (Z.ltb_spec i (size (system_to_component_table fe)));
    cbn; [|discriminate].
  destruct (is_primitive fe i) as [[|]| |] eqn:Hp; cbn; try discriminate.
  intros He. split; [now apply vec_at_Returns_inv|].
  now apply is_primitive_true_inv.
Qed.

Lemma system_to_component_index_returns_witness :
  system_to_component_table mixed_2d !! Z.to_nat 4 = Some (0, 0)
  ∧ 4 < dofs_per_cell (fe_data mixed_2d)
  ∧ n_nonzero_components mixed_2d 4 = Returns 1.
Proof.
  apply (system_to_component_index_returns mixed_2d 4 (0, 0)).
  - lia.
  - vm_compute. reflexivity.
Defined.

(** X6.  A value returned by [face_system_to_component_index] is the
    entry of the face table at that face index, and the shape function
    with the corresponding cell index has exactly one non-zero component.
    [system_to_component_index] at that cell index therefore never
    signals [ExcShapeFunctionNotPrimitive]: it returns the entry of the
    cell table when the cell index lies within that table, and signals
    [ExcIndexRange] when the cell table is too short to hold it. *)
Theorem face_system_to_component_index_returns dim G fe f e :
  0 <= f →
  face_system_to_component_index dim G fe f = Returns e →
  let c := face_to_cell_index dim G fe f in
  face_system_to_component_table fe !! Z.to_nat f = Some e
  ∧ n_nonzero_components fe c = Returns 1
  ∧ (c < size (system_to_component_table fe) →
     ∃ ec, system_to_component_table fe !! Z.to_nat c = Some ec
           ∧ system_to_component_index fe c = Returns ec)
  ∧ (size (system_to_component_table fe) <= c →
     system_to_component_index fe c
     = Throws (ExcIndexRange c 0 (size (system_to_component_table fe)))).
Proof.
  intros H0. rewrite face_system_to_component_index_remap.
  destruct (Z.ltb_spec f (size (face_system_to_component_table fe)));
    cbn; [|discriminate].
  destruct (is_primitive fe (face_to_cell_index dim G fe f))
    as [[|]| |] eqn:Hp; cbn; try discriminate.
  intros He.
  pose proof (face_to_cell_index_nonneg dim G fe f H0) as Hc.
  split; [now apply vec_at_Returns_inv|].
  split; [now apply is_primitive_true_inv|].
  split.
  - intros Hin.
    destruct (vec_at_in_range (system_to_component_table fe)
                (face_to_cell_index dim G fe f)) as [ec [Hec _]]; [lia|].
    exists ec. split; [exact Hec|].
    now apply (system_to_component_index_checked fe _ ec true).
  - intros Hout. unfold system_to_component_index.
    now rewrite Assert_lt_out.
Qed.

Lemma face_system_to_component_index_returns_witness :
  (face_system_to_component_table q2_3d !! Z.to_nat 8 = Some (0, 8)
   ∧ n_nonzero_components q2_3d 20 = Returns 1
   ∧ system_to_component_index q2_3d 20 = Returns (0, 20))
  ∧ (face_system_to_component_index dim2 hypercube q1_short_table 1
     = Returns (0, 1)
     ∧ system_to_component_index q1_short_table 1
       = Throws (ExcIndexRange 1 0 1)).
Proof.
  split.
  - pose proof (face_system_to_component_index_returns dim3 hypercube
                  q2_3d 8 (0, 8)) as H.
    cbv zeta in H.
    destruct H as (Hface & Hn & Hcell & _);
      [lia | vm_compute; reflexivity |].
    split; [exact Hface|]. split; [exact Hn|].
    destruct Hcell as (ec & Hec & Hret); [vm_compute; reflexivity|].
    vm_compute in Hec. injection Hec as <-. exact Hret.
  - pose proof (face_system_to_component_index_returns dim2 hypercube
                  q1_short_table 1 (0, 1)) as H.
    cbv zeta in H.
    destruct H as (_ & _ & _ & Hshort);
      [lia | vm_compute; reflexivity |].
    split; [vm_compute; reflexivity|].
    apply Hshort. vm_compute. discriminate.
Defined.

(** ** The map from face indices to cell indices *)

(** The map without wrap-around, for dof counts that fit. *)
Lemma face_to_cell_index_exact dim G fe index :
  0 <= index →
  0 <= dofs_per_vertex (fe_data fe) →
  0 <= dofs_per_line (fe_data fe) →
  0 <= vertices_per_face (G (dim_int dim))
    <= vertices_per_cell (G (dim_int dim)) →
  0 <= lines_per_face (G (dim_int dim))
    <= lines_per_cell (G (dim_int dim)) →
  vertices_per_cell (G (dim_int dim)) * dofs_per_vertex (fe_data fe)
  + lines_per_cell (G (dim_int dim)) * dofs_per_line (fe_data fe)
  + index < 2 ^ 32 →
  let A := vertices_per_face (G (dim_int dim))
           * dofs_per_vertex (fe_data fe) in
  let B := lines_per_face (G (dim_int dim)) * dofs_per_line (fe_data fe) in
  let C := vertices_per_cell (G (dim_int dim))
           * dofs_per_vertex (fe_data fe) in
  let D := lines_per_cell (G (dim_int dim)) * dofs_per_line (fe_data fe) in
  0 <= A <= C ∧ 0 <= B <= D
  ∧ face_to_cell_index dim G fe index
    = match dim with
      | dim1 => index
      | dim2 => if index <? A then index else C + (index - A)
      | dim3 => if index <? A then index
                else if index <? A + B then C + (index - A)
                else C + D + (index - A - B)
      end.
Proof.
  intros Hi Hdv Hdl Hv Hl Hfit A B C D.
  assert (0 <= A <= C) as HA by (subst A C; nia).
  assert (0 <= B <= D) as HB by (subst B D; nia).
  split; [exact HA|]. split; [exact HB|].
  destruct dim; cbn [face_to_cell_index]; [reflexivity | |].
  - unfold face_to_cell_index_2d, uadd, usub, umul. cbv zeta.
    cbn [dim_int] in *. fold A C.
    rewrite !(wrap_small A), (wrap_small C) by (unfold is_unsigned; lia).
    destruct (Z.ltb_spec index A); [reflexivity|].
    unwrap. reflexivity.
  - unfold face_to_cell_index_3d, uadd, usub, umul. cbv zeta.
    cbn [dim_int] in *. fold A B C D.
    rewrite !(wrap_small A), !(wrap_small B), !(wrap_small C),
      !(wrap_small D) by (unfold is_unsigned; lia).
    rewrite !(wrap_small (A + B)) by (unfold is_unsigned; lia).
    destruct (Z.ltb_spec index A); [reflexivity|].
    destruct (Z.ltb_spec index (A + B)); unwrap; reflexivity.
Qed.

(** X7.  The map keeps the blocks apart (for dof counts that fit an
    [unsigned int]): a face-vertex dof is sent into the vertex block of
    the cell, in 3-d a face-line dof into the line block of the cell, and
    every other face dof to a cell index past the vertex block (2-d) or
    past the vertex and the line block (3-d), at the same offset it has
    within its own block of the face. *)
Theorem face_to_cell_index_blocks dim G fe index :
  let g := G (dim_int dim) in
  let dv := dofs_per_vertex (fe_data fe) in
  let dl := dofs_per_line (fe_data fe) in
  let c := face_to_cell_index dim G fe index in
  0 <= index → 0 <= dv → 0 <= dl →
  0 <= vertices_per_face g <= vertices_per_cell g →
  0 <= lines_per_face g <= lines_per_cell g →
  vertices_per_cell g * dv + lines_per_cell g * dl + index < 2 ^ 32 →
  match dim with
  | dim1 => c = index
  | dim2 =>
      (index < vertices_per_face g * dv →
         c = index ∧ c < vertices_per_cell g * dv)
      ∧ (vertices_per_face g * dv <= index →
           vertices_per_cell g * dv <= c
           ∧ c - vertices_per_cell g * dv
             = index - vertices_per_face g * dv)
  | dim3 =>
      (index < vertices_per_face g * dv →
         c = index ∧ c < vertices_per_cell g * dv)
      ∧ (vertices_per_face g * dv <= index
         < vertices_per_face g * dv + lines_per_face g * dl →
           vertices_per_cell g * dv <= c
           < vertices_per_cell g * dv + lines_per_cell g * dl
           ∧ c - vertices_per_cell g * dv
             = index - vertices_per_face g * dv)
      ∧ (vertices_per_face g * dv + lines_per_face g * dl <= index →
           vertices_per_cell g * dv + lines_per_cell g * dl <= c
           ∧ c - (vertices_per_cell g * dv + lines_per_cell g * dl)
             = index - (vertices_per_face g * dv + lines_per_face g * dl))
  end.
Proof.
  intros g dv dl c Hi Hdv Hdl Hv Hl Hfit. subst g dv dl c.
  destruct (face_to_cell_index_exact dim G fe index Hi Hdv Hdl Hv Hl Hfit)
    as (HA & HB & ->).
  destruct dim; cbn [dim_int] in *; [reflexivity | |].
  - set (A := vertices_per_face (G 2) * _) in *.
    set (C := vertices_per_cell (G 2) * _) in *.
    destruct (Z.ltb_spec index A); split; intros; lia.
  - set (A := vertices_per_face (G 3) * _) in *.
    set (B := lines_per_face (G 3) * _) in *.
    set (C := vertices_per_cell (G 3) * _) in *.
    set (D := lines_per_cell (G 3) * _) in *.
    destruct (Z.ltb_spec index A), (Z.ltb_spec index (A + B));
      (split; [|split]); intros; lia.
Qed.

Lemma face_to_cell_index_blocks_witness :
  8 <= face_to_cell_index dim3 hypercube q2_3d 6 < 8 + 12
  ∧ face_to_cell_index dim3 hypercube q2_3d 6 - 8 = 6 - 4.
Proof.
  assert (∀ a b : Z, (a ?= b) ≠ Gt → a <= b) as Hle by (intros a b H; exact H).
  assert (∀ a b : Z, (a ?= b) = Lt → a < b) as Hlt by (intros a b H; exact H).
  pose proof (face_to_cell_index_blocks dim3 hypercube q2_3d 6) as H.
  cbv zeta in H.
  destruct H as (_ & Hline & _).
  - apply Hle. vm_compute. discriminate.
  - apply Hle. vm_compute. discriminate.
  - apply Hle. vm_compute. discriminate.
  - split; apply Hle; vm_compute; discriminate.
  - split; apply Hle; vm_compute; discriminate.
  - apply Hlt. vm_compute. reflexivity.
  - apply Hline. split; [apply Hle | apply Hlt]; vm_compute;
      first [reflexivity | discriminate].
Defined.

(** X8.  The map is strictly increasing, hence one-to-one (for dof counts
    that fit an [unsigned int]): two different face indices never share a
    cell index. *)
Theorem face_to_cell_index_increasing dim G fe f f' :
  let g := G (dim_int dim) in
  let dv := dofs_per_vertex (fe_data fe) in
  let dl := dofs_per_line (fe_data fe) in
  0 <= f < f' → 0 <= dv → 0 <= dl →
  0 <= vertices_per_face g <= vertices_per_cell g →
  0 <= lines_per_face g <= lines_per_cell g →
  vertices_per_cell g * dv + lines_per_cell g * dl + f' < 2 ^ 32 →
  face_to_cell_index dim G fe f < face_to_cell_index dim G fe f'.
Proof.
  intros g dv dl Hf Hdv Hdl Hv Hl Hfit. subst g dv dl.
  destruct (face_to_cell_index_exact dim G fe f) as (HA & HB & ->);
    [lia | exact Hdv | exact Hdl | exact Hv | exact Hl | lia |].
  destruct (face_to_cell_index_exact dim G fe f') as (_ & _ & ->);
    [lia | exact Hdv | exact Hdl | exact Hv | exact Hl | lia |].
  destruct dim; cbn [dim_int] in *; [lia | |].
  - set (A := vertices_per_face (G 2) * _) in *.
    set (C := vertices_per_cell (G 2) * _) in *.
    destruct (Z.ltb_spec f A), (Z.ltb_spec f' A); lia.
  - set (A := vertices_per_face (G 3) * _) in *.
    set (B := lines_per_face (G 3) * _) in *.
    set (C := vertices_per_cell (G 3) * _) in *.
    set (D := lines_per_cell (G 3) * _) in *.
    destruct (Z.ltb_spec f A), (Z.ltb_spec f' A),
      (Z.ltb_spec f (A + B)), (Z.ltb_spec f' (A + B)); lia.
Qed.

Lemma face_to_cell_index_increasing_witness :
  face_to_cell_index dim3 hypercube q2_3d 3
  < face_to_cell_index dim3 hypercube q2_3d 4.
Proof.
  apply (face_to_cell_index_increasing dim3 hypercube q2_3d 3 4);
    vm_compute; intuition discriminate.
Defined.

(** ** The round trip without any assumption on the table *)

(** X9.  For a primitive shape function [i] within the table, the search
    for the pair that [system_to_component_index i] returns never fails:
    it returns an index [r] that is at most [i] and holds the same
    pair. *)
Theorem component_to_system_index_round_trip_lands fe i :
  is_unsigned i →
  i < size (system_to_component_table fe) →
  is_primitive fe i = Returns true →
  ∃ c k r,
    system_to_component_index fe i = Returns (c, k)
    ∧ component_to_system_index fe c k = Returns r
    ∧ 0 <= r <= i
    ∧ system_to_component_table fe !! Z.to_nat r = Some (c, k).
Proof.
  intros Hu Hi Hp. unfold is_unsigned in Hu.
  destruct (vec_at_in_range (system_to_component_table fe) i)
    as [[c k] [He _]]; [lia|].
  exists c, k.
  destruct (component_to_system_index_cases fe c k)
    as [(pos & Hfind & Hret) | (Hfind & _)].
  - apply list_find_Some in Hfind as (Hl & _ & Hfirst).
    assert (pos <= Z.to_nat i)%nat as Hpos.
    { destruct (Nat.le_gt_cases pos (Z.to_nat i)) as [H|H]; [exact H|].
      now destruct (Hfirst _ _ He H). }
    exists (Z.of_nat pos).
    split; [|split; [|split]].
    + now rewrite (system_to_component_index_checked fe i (c, k) true).
    + rewrite Hret. f_equal. apply wrap_small. unfold is_unsigned. lia.
    + lia.
    + now rewrite Nat2Z.id.
  - apply list_find_None in Hfind. rewrite Forall_lookup in Hfind.
    now destruct (Hfind _ _ He).
Qed.

Lemma component_to_system_index_round_trip_lands_witness :
  ∃ c k r,
    system_to_component_index mixed_2d 4 = Returns (c, k)
    ∧ component_to_system_index mixed_2d c k = Returns r
    ∧ 0 <= r <= 4
    ∧ system_to_component_table mixed_2d !! Z.to_nat r = Some (c, k).
Proof.
  apply (component_to_system_index_round_trip_lands mixed_2d 4).
  - unfold is_unsigned. lia.
  - vm_compute. reflexivity.
  - vm_compute. reflexivity.
Defined.
